(** * Orphan-snapshot reconciliation: a shallow embedding of
      [list_not_found_ami_snapshot.py] and the properties of its core.

    The script lists the snapshots of an account that were created by
    [CreateImage], lists the snapshots still referenced by the account's
    images, takes the set difference, tags the difference and writes it to a
    text file.  The provider client, the file system and the exceptions are
    modelled explicitly; logging is left out (it never influences a result). *)

From stdpp Require Import gmap strings list.

#[local] Set Warnings "-clear-no-such-hyp".

Open Scope string_scope.
Open Scope list_scope.

(** ** Strings *)

(** The line feed written by [file.write(f"{snapshot_id}\n")]. *)
Definition LF : Ascii.ascii := Ascii.ascii_of_nat 10.
Definition newline : string := String LF EmptyString.

(** [needle] is a prefix of [hay]. *)
Fixpoint starts_with (needle hay : string) : bool :=
  match needle, hay with
  | EmptyString, _ => true
  | String a needle', String b hay' =>
      if decide (a = b) then starts_with needle' hay' else false
  | String _ _, EmptyString => false
  end.

(** Python's [needle in hay] on [str]. *)
Fixpoint py_in (needle hay : string) : bool :=
  starts_with needle hay ||
  match hay with
  | EmptyString => false
  | String _ hay' => py_in needle hay'
  end.

(** The mathematical reading of "contains the substring". *)
Definition is_substring (needle hay : string) : Prop :=
  ∃ pre post, hay = pre +:+ needle +:+ post.

(** Splitting a text at line feeds: the lines of a file, each line being
    terminated by a line feed (an unterminated tail counts as a last line). *)
Fixpoint split_lines (cur : string) (text : string) : list string :=
  match text with
  | EmptyString => match cur with EmptyString => [] | _ => [cur] end
  | String a text' =>
      if decide (a = LF) then cur :: split_lines EmptyString text'
      else split_lines (cur +:+ String a EmptyString) text'
  end.

Definition lines (text : string) : list string := split_lines EmptyString text.


(** ** Exceptions and outcomes *)

Inductive exn : Type :=
  | ClientError (what : string)                (* raised by the provider client *)
  | KeyError (key : string)                    (* [d[key]] on a missing key *)
  | OSError (what : string)                    (* raised by the file system *)
  | Exception_from (msg : string) (cause : exn). (* [raise Exception(msg) from e] *)

Inductive outcome (A : Type) : Type :=
  | Ok (a : A)
  | Raise (e : exn).
Arguments Ok {A} a.
Arguments Raise {A} e.

(** ** Records of the provider's listing API *)

(** A snapshot as returned by [describe_snapshots]; both keys are read with
    [.get] and the empty string as default, so both may be absent. *)
Record snapshot : Type := Snapshot {
  snap_Description : option string;
  snap_SnapshotId : option string;
}.

Record ebs : Type := EbsDevice { ebs_SnapshotId : option string }.

Record block_device : Type := BlockDevice { block_Ebs : option ebs }.

Record ami : Type := Ami { ami_BlockDeviceMappings : option (list block_device) }.

(** A response page; [page["Snapshots"]] and [page["Images"]] are subscripts,
    which raise [KeyError] when the key is absent. *)
Record snapshots_page : Type := SnapshotsPage { page_Snapshots : option (list snapshot) }.
Record images_page : Type := ImagesPage { page_Images : option (list ami) }.

(** What iterating a paginator produces: the pages it yields and, when a page
    fetch fails for good, the error raised after the last page it yielded. *)
Record paginated (P : Type) : Type := Paginated {
  pg_pages : list P;
  pg_failure : option exn;
}.
Arguments Paginated {P} _ _.
Arguments pg_pages {P} _.
Arguments pg_failure {P} _.

(** The injected client capability. *)
Record client : Type := Client {
  describe_snapshots : paginated snapshots_page;
  describe_images : paginated images_page;
  create_tags_fault : list string → option exn;
}.

(** ** The two inventory collectors *)

Section Paginate.
Context {P R : Type}.
Variable key : string.
Variable records : P → option (list R).
Variable add : gset string → R → gset string.

  (** [for page in response_iterator: for r in page[key]: add r]. *)
Fixpoint scan_pages (acc : gset string) (pages : list P) : outcome (gset string) :=
    match pages with
    | [] => Ok acc
    | page :: rest =>
        match records page with
        | None => Raise (KeyError key)
        | Some rs => scan_pages (foldl add acc rs) rest
        end
    end.

Definition collect (resp : paginated P) : outcome (gset string) :=
    match scan_pages ∅ (pg_pages resp) with
    | Raise e => Raise e
    | Ok s =>
        match pg_failure resp with
        | Some e => Raise e
        | None => Ok s
        end
    end.
End Paginate.

Definition MARKER : string := "Created by CreateImage".

(** The body of the inner loop of [list_snapshot]. *)
Definition add_snapshot (snapshots_set : gset string) (s : snapshot) : gset string :=
  let snapshot_description := default EmptyString (snap_Description s) in
  if py_in MARKER snapshot_description then
    let snapshot_id := default EmptyString (snap_SnapshotId s) in
    {[ snapshot_id ]} ∪ snapshots_set
  else snapshots_set.

Definition list_snapshot (ec2_client : client) : outcome (gset string) :=
  collect "Snapshots" page_Snapshots add_snapshot (describe_snapshots ec2_client).

(** The body of the innermost loop of [list_ami]. *)
Definition add_block (amis_set : gset string) (block : block_device) : gset string :=
  let ebs := default (EbsDevice None) (block_Ebs block) in
  let snapshot_id := default EmptyString (ebs_SnapshotId ebs) in
  {[ snapshot_id ]} ∪ amis_set.

Definition add_ami (amis_set : gset string) (image : ami) : gset string :=
  foldl add_block amis_set (default [] (ami_BlockDeviceMappings image)).

Definition list_ami (ec2_client : client) : outcome (gset string) :=
  collect "Images" page_Images add_ami (describe_images ec2_client).

(** ** Side effects: provider tags, the export file, and the calls issued *)

Inductive event : Type :=
  | EvCreateTags (Resources : list string) (Tags : list (string * string))
  | EvOpen (path : string) (mode : string)
  | EvWrite (data : string)
  | EvClose.

(** Whether an event touches the export file. *)
Definition is_file_event (ev : event) : bool :=
  match ev with
  | EvCreateTags _ _ => false
  | EvOpen _ _ | EvWrite _ | EvClose => true
  end.

Definition is_tag_event (ev : event) : bool :=
  match ev with
  | EvCreateTags _ _ => true
  | _ => false
  end.

(** The state a run can change, with the behaviour of the disk: the tags held
    by the provider per resource, the content of the export file ([None] when
    the file does not exist), the number of open handles on it, the calls
    issued so far (oldest first), and when opening or writing fails. *)
Record world : Type := World {
  provider_tags : gmap string (gmap string string);
  export_file : option string;
  open_handles : nat;
  trace : list event;
  open_fault : option exn;
  write_fault : string → string → option exn;
}.

Definition log_event (ev : event) (w : world) : world :=
  World (provider_tags w) (export_file w) (open_handles w) (trace w ++ [ev])
        (open_fault w) (write_fault w).

Definition set_tags (t : gmap string (gmap string string)) (w : world) : world :=
  World t (export_file w) (open_handles w) (trace w) (open_fault w) (write_fault w).

Definition set_file (f : option string) (w : world) : world :=
  World (provider_tags w) f (open_handles w) (trace w) (open_fault w) (write_fault w).

Definition set_handles (n : nat) (w : world) : world :=
  World (provider_tags w) (export_file w) n (trace w) (open_fault w) (write_fault w).

(** Computations that read and change the world and may raise. *)
Definition M (A : Type) : Type := world → outcome A * world.

Definition ret {A} (a : A) : M A := λ w, (Ok a, w).

Definition raise {A} (e : exn) : M A := λ w, (Raise e, w).

Definition bind {A B} (m : M A) (k : A → M B) : M B :=
  λ w, match m w with
       | (Ok a, w') => k a w'
       | (Raise e, w') => (Raise e, w')
       end.

(** [try: m except Exception as e: handler e]. *)
Definition try_except {A} (m : M A) (handler : exn → M A) : M A :=
  λ w, match m w with
       | (Ok a, w') => (Ok a, w')
       | (Raise e, w') => handler e w'
       end.

(** The exit of a [with] block: [cleanup] runs on every path out of [m]. *)
Definition finally {A} (m : M A) (cleanup : M unit) : M A :=
  λ w, match m w with
       | (r, w') =>
           match cleanup w' with
           | (Ok _, w'') => (r, w'')
           | (Raise e, w'') => (Raise e, w'')
           end
       end.

Definition lift {A} (r : outcome A) : M A := λ w, (r, w).

Declare Scope M_scope.
Notation "x ← m ; k" := (bind m (λ x, k))
  (at level 20, m at level 100, k at level 200, only parsing) : M_scope.
Notation "m ;; k" := (bind m (λ _, k))
  (at level 100, k at level 200, right associativity) : M_scope.
Delimit Scope M_scope with M.
Bind Scope M_scope with M.

(** The directory part is the script's own directory. *)
Definition DIRECTORY_NAME : string := "list_not_found_ami_snapshot".
Definition EXPORT_FILE_NAME : string := DIRECTORY_NAME +:+ "/unassociated_snapshots.txt".

Definition TAGS : list (string * string) := [("NotAttachedAMI", "True")].

(** What a successful [create_tags] does on the provider's side. *)
Definition apply_tags (Resources : list string) (Tags : list (string * string))
    (t : gmap string (gmap string string)) : gmap string (gmap string string) :=
  foldr (λ r t', <[ r := list_to_map Tags ∪ default ∅ (t' !! r) ]> t') t Resources.

Definition grant_tag (ec2_client : client) (snapshot_ids : list string) : M unit :=
  λ w,
    let w1 := log_event (EvCreateTags snapshot_ids TAGS) w in
    match create_tags_fault ec2_client snapshot_ids with
    | Some e => (Raise e, w1)
    | None => (Ok (), set_tags (apply_tags snapshot_ids TAGS (provider_tags w1)) w1)
    end.

(** [export_path.open("w", encoding="utf-8")]: truncates or creates. *)
Definition file_open_w : M unit :=
  λ w,
    let w1 := log_event (EvOpen EXPORT_FILE_NAME "w") w in
    match open_fault w1 with
    | Some e => (Raise e, w1)
    | None => (Ok (), set_handles (S (open_handles w1)) (set_file (Some EmptyString) w1))
    end.

(** [file.write(data)], taken at the level of the call: a write either
    appends all its data or raises.  The buffering of the text stream is not
    modelled, so nothing below says which bytes a failed export leaves in the
    file, nor at which call of the block the error surfaces. *)
Definition file_write (data : string) : M unit :=
  λ w,
    let w1 := log_event (EvWrite data) w in
    let content := default EmptyString (export_file w1) in
    match write_fault w1 content data with
    | Some e => (Raise e, w1)
    | None => (Ok (), set_file (Some (content +:+ data)) w1)
    end.

Definition file_close : M unit :=
  λ w, (Ok (), set_handles (pred (open_handles w)) (log_event EvClose w)).

(** [for snapshot_id in ids: file.write(f"{snapshot_id}\n")]. *)
Fixpoint write_all (ids : list string) : M unit :=
  match ids with
  | [] => ret ()
  | snapshot_id :: rest => (file_write (snapshot_id +:+ newline) ;; write_all rest)%M
  end.

(** A set is iterated in the order of [elements]: one fixed enumeration,
    shared by [list(...)] and the loop of one run, as for an unmodified
    Python set.  Which enumeration Python takes, and whether two runs take the
    same one, is not specified; the properties below do not rest on it. *)
Definition export_text (unassociated_snapshots : gset string) : M unit :=
  (file_open_w ;;
   finally (write_all (elements unassociated_snapshots)) file_close)%M.

Definition MAIN_ERROR : string := "メイン関数エラー".

(** The expression [snapshots_set - amis_set] of [main]. *)
Definition reconcile (snapshots_set amis_set : gset string) : gset string :=
  snapshots_set ∖ amis_set.

(** Truth value of a set: non-empty. *)
Definition truthy (s : gset string) : bool := negb (bool_decide (s = ∅)).

Definition main (ec2_client : client) : M (gset string) :=
  try_except
    (snapshots_set ← lift (list_snapshot ec2_client);
     amis_set ← lift (list_ami ec2_client);
     let unassociated_snapshots := reconcile snapshots_set amis_set in
     (if truthy unassociated_snapshots then
        (grant_tag ec2_client (elements unassociated_snapshots) ;;
         export_text unassociated_snapshots)
      else ret ()) ;;
     ret unassociated_snapshots)%M
    (λ e, raise (Exception_from MAIN_ERROR e)).

(** ** Vocabulary of the properties *)

Section Pages.
Context {P R : Type}.
Variable records : P → option (list R).

  (** Every record of every page, in the order the loops visit them. *)
Definition all_records (pages : list P) : list R :=
    pages ≫= (λ p, default [] (records p)).

  (** Two pages hold the same records up to their order. *)
Definition same_page (p q : P) : Prop :=
    option_Forall2 Permutation (records p) (records q).

  (** [pages'] is [pages] with the pages reordered and the records reordered
      within each page. *)
Definition shuffled (pages pages' : list P) : Prop :=
    ∃ mid, pages ≡ₚ mid ∧ Forall2 same_page mid pages'.
End Pages.

Definition snapshot_description (s : snapshot) : string :=
  default EmptyString (snap_Description s).

Definition snapshot_id (s : snapshot) : string :=
  default EmptyString (snap_SnapshotId s).

(** Every snapshot record listed to [list_snapshot]. *)
Definition listed_snapshots (c : client) : list snapshot :=
  all_records page_Snapshots (pg_pages (describe_snapshots c)).

(** Every block-device mapping of every image listed to [list_ami]. *)
Definition listed_blocks (c : client) : list block_device :=
  all_records page_Images (pg_pages (describe_images c))
    ≫= (λ image, default [] (ami_BlockDeviceMappings image)).

(** A mapping without an EBS snapshot id: no [Ebs] entry, or an [Ebs] entry
    without [SnapshotId]. *)
Definition lacks_snapshot_id (b : block_device) : Prop :=
  block_Ebs b = None ∨ block_Ebs b = Some (EbsDevice None).

(** The phases of a run. *)
Inductive phase : Type :=
  | SnapshotInventory
  | ImageInventory
  | Tagging
  | Export.

(** The first phase of [main] that raises in world [w], with what it raises;
    [None] when no phase raises.  It follows the control flow of [main]. *)
Definition phase_failure (c : client) (w : world) : option (phase * exn) :=
  match list_snapshot c with
  | Raise e => Some (SnapshotInventory, e)
  | Ok snapshots_set =>
      match list_ami c with
      | Raise e => Some (ImageInventory, e)
      | Ok amis_set =>
          let orphans := reconcile snapshots_set amis_set in
          if truthy orphans then
            match grant_tag c (elements orphans) w with
            | (Raise e, _) => Some (Tagging, e)
            | (Ok _, w1) =>
                match export_text orphans w1 with
                | (Raise e, _) => Some (Export, e)
                | (Ok _, _) => None
                end
            end
          else None
      end
  end.

(** The disk never refuses an operation. *)
Definition healthy_disk (w : world) : Prop :=
  open_fault w = None ∧ ∀ content data, write_fault w content data = None.

(** The text [export_text] is meant to produce. *)
Definition export_content (ids : list string) : string :=
  foldr (λ id rest, id +:+ newline +:+ rest) EmptyString ids.

(** What one snapshot record adds to the result of [list_snapshot]. *)
Definition snapshot_contrib (s : snapshot) : gset string :=
  if py_in MARKER (snapshot_description s) then {[ snapshot_id s ]} else ∅.

(** The id [list_ami] reads from a block-device mapping. *)
Definition block_snapshot_id (b : block_device) : string :=
  default EmptyString (ebs_SnapshotId (default (EbsDevice None) (block_Ebs b))).

(** What one image adds to the result of [list_ami]. *)
Definition ami_contrib (image : ami) : gset string :=
  ⋃ ((λ b, {[ block_snapshot_id b ]}) <$> default [] (ami_BlockDeviceMappings image)).

(** The events a run appends to the trace of [w] to reach [w']. *)
Definition appended (w w' : world) (evs : list event) : Prop :=
  trace w' = (trace w ++ evs)%list.

(** ** Sample data *)

Definition created_by (instance image volume : string) : string :=
  "Created by CreateImage(" +:+ instance +:+ ") for " +:+ image +:+ " from " +:+ volume.

Definition snap (description id : string) : snapshot :=
  Snapshot (Some description) (Some id).

Definition ebs_block (id : string) : block_device :=
  BlockDevice (Some (EbsDevice (Some id))).

Definition image_of (id : string) : ami := Ami (Some [ebs_block id]).

Definition no_fault : list string → option exn := λ _, None.

(** Three images were created from one instance and the second one was
    deregistered; a manual snapshot exists as well. *)
Definition snapshots_a : list snapshots_page :=
  [ SnapshotsPage (Some [ snap (created_by "i-1" "ami-1" "vol-1") "snap-1";
                          snap (created_by "i-1" "ami-2" "vol-1") "snap-2" ]);
    SnapshotsPage (Some [ snap (created_by "i-1" "ami-3" "vol-1") "snap-3";
                          snap "manual backup" "snap-4" ]) ].

Definition images_a : list images_page :=
  [ ImagesPage (Some [ image_of "snap-1" ]); ImagesPage (Some [ image_of "snap-3" ]) ].

Definition client_a : client :=
  Client (Paginated snapshots_a None) (Paginated images_a None) no_fault.

(** The same inventories with pages and records in another order. *)
Definition snapshots_a' : list snapshots_page :=
  [ SnapshotsPage (Some [ snap "manual backup" "snap-4";
                          snap (created_by "i-1" "ami-3" "vol-1") "snap-3" ]);
    SnapshotsPage (Some [ snap (created_by "i-1" "ami-1" "vol-1") "snap-1";
                          snap (created_by "i-1" "ami-2" "vol-1") "snap-2" ]) ].

Definition images_a' : list images_page :=
  [ ImagesPage (Some [ image_of "snap-3" ]); ImagesPage (Some [ image_of "snap-1" ]) ].

Definition client_a' : client :=
  Client (Paginated snapshots_a' None) (Paginated images_a' None) no_fault.

(** The provider rejects the tagging call. *)
Definition tag_error : exn := ClientError "create_tags".

Definition client_tag_fails : client :=
  Client (Paginated snapshots_a None) (Paginated images_a None) (λ _, Some tag_error).

(** One listing fails for good, with the same provider error. *)
Definition listing_error : exn := ClientError "retries exhausted".

Definition client_snapshots_fail : client :=
  Client (Paginated snapshots_a (Some listing_error)) (Paginated images_a None) no_fault.

Definition client_images_fail : client :=
  Client (Paginated snapshots_a None) (Paginated images_a (Some listing_error)) no_fault.

(** No image exists and the only snapshot was made by hand. *)
Definition client_manual_only : client :=
  Client (Paginated [ SnapshotsPage (Some [ snap "manual backup" "snap-4" ]) ] None)
         (Paginated [ ImagesPage (Some []) ] None) no_fault.


(** As [client_a], with a marked snapshot record lacking its id and an image
    mapping lacking an EBS snapshot id. *)
Definition client_masked : client :=
  Client (Paginated (SnapshotsPage (Some [ Snapshot (Some MARKER) None ]) :: snapshots_a) None)
         (Paginated (ImagesPage (Some [ Ami (Some [ BlockDevice (Some (EbsDevice None)) ]) ])
                     :: images_a) None)
         no_fault.

(** An export file left by an earlier run, on a disk without faults. *)
Definition world_a : world :=
  World ∅ (Some "snap-0") 0 [] None (λ _ _, None).

(** A disk that accepts one line and then is full. *)
Definition world_full : world :=
  World ∅ (Some "snap-0") 0 []
        None (λ content _, match content with
                            | EmptyString => None
                            | _ => Some (OSError "No space left on device")
                            end).


(** A snapshot page without its [Snapshots] key, in a listing that also fails
    for good after its last page. *)
Definition client_missing_key : client :=
  Client (Paginated (snapshots_a ++ [ SnapshotsPage None ]) (Some listing_error))
         (Paginated images_a None) no_fault.

(** As [client_a], with the first snapshot page delivered twice. *)
Definition client_repeated_page : client :=
  Client (Paginated (SnapshotsPage (Some [ snap (created_by "i-1" "ami-1" "vol-1") "snap-1";
                                           snap (created_by "i-1" "ami-2" "vol-1") "snap-2" ])
                     :: snapshots_a) None)
         (Paginated images_a None) no_fault.

(** As [client_a], after the third image was deregistered as well. *)
Definition client_fewer_images : client :=
  Client (Paginated snapshots_a None)
         (Paginated [ ImagesPage (Some [ image_of "snap-1" ]) ] None) no_fault.

(** As [client_a], with a marked snapshot record lacking its id; every image
    mapping carries a snapshot id. *)
Definition client_unmasked : client :=
  Client (Paginated (SnapshotsPage (Some [ Snapshot (Some MARKER) None ]) :: snapshots_a) None)
         (Paginated images_a None) no_fault.

(** Every image-derived snapshot is still referenced by an image. *)
Definition client_all_referenced : client :=
  Client (Paginated snapshots_a None)
         (Paginated (ImagesPage (Some [ image_of "snap-2" ]) :: images_a) None) no_fault.

(** The export file cannot be opened for writing. *)
Definition world_read_only : world :=
  World ∅ (Some "snap-0") 0 [] (Some (OSError "Permission denied")) (λ _ _, None).

(** * Properties *)

(** ** Strings *)

Lemma append_nil_l (s : string) : EmptyString +:+ s = s.
Proof. reflexivity. Qed.

Lemma append_cons (a : Ascii.ascii) (s t : string) :
  String a s +:+ t = String a (s +:+ t).
Proof. reflexivity. Qed.

Lemma append_nil_r (s : string) : s +:+ EmptyString = s.
Proof. induction s as [|a s IH]; [done|]. by rewrite append_cons, IH. Qed.

Lemma append_assoc (s t u : string) : (s +:+ t) +:+ u = s +:+ (t +:+ u).
Proof. induction s as [|a s IH]; [done|]. by rewrite !append_cons, IH. Qed.

Lemma starts_with_spec (needle hay : string) :
  starts_with needle hay = true ↔ ∃ post, hay = needle +:+ post.
Proof.
  revert hay. induction needle as [|a needle IH]; intros hay; simpl.
  - split; [intros _; by exists hay | done].
  - destruct hay as [|b hay].
    + split; [done | intros [post Hpost]; by rewrite append_cons in Hpost].
    + case_decide as Hab.
      * subst b. rewrite IH. split; intros [post Hpost]; exists post.
        -- by rewrite append_cons, Hpost.
        -- rewrite append_cons in Hpost. by injection Hpost.
      * split; [done|]. intros [post Hpost]. rewrite append_cons in Hpost.
        injection Hpost as -> _. done.
Qed.

(** The executable test agrees with the mathematical notion of substring. *)
Lemma py_in_spec (needle hay : string) :
  py_in needle hay = true ↔ is_substring needle hay.
Proof.
  unfold is_substring. induction hay as [|b hay IH]; simpl.
  - rewrite orb_false_r, starts_with_spec. split.
    + intros [post Hpost]. by exists EmptyString, post.
    + intros [[|a pre] [post Hpost]]; [by exists post|].
      by rewrite append_cons in Hpost.
  - rewrite orb_true_iff, starts_with_spec, IH. split.
    + intros [[post Hpost] | (pre & post & Hpost)].
      * by exists EmptyString, post.
      * exists (String b pre), post. by rewrite append_cons, Hpost.
    + intros [[|a pre] [post Hpost]].
      * left. by exists post.
      * right. rewrite append_cons in Hpost. injection Hpost as -> ->.
        by exists pre, post.
Qed.

Lemma py_in_false (needle hay : string) :
  py_in needle hay = false ↔ ¬ is_substring needle hay.
Proof. rewrite <- py_in_spec. by destruct (py_in needle hay). Qed.



(** ** The collectors as unions of per-record contributions *)

Lemma foldl_add {R : Type} (add : gset string → R → gset string)
    (contrib : R → gset string) (acc : gset string) (rs : list R) :
  (∀ acc' r, add acc' r = contrib r ∪ acc') →
  foldl add acc rs = ⋃ (contrib <$> rs) ∪ acc.
Proof.
  intros Hadd. revert acc. induction rs as [|r rs IH]; intros acc; simpl.
  - set_solver.
  - rewrite IH, Hadd. set_solver.
Qed.

Section PaginateFacts.
Context {P R : Type}.
Variable key : string.
Variable records : P → option (list R).
Variable add : gset string → R → gset string.
Variable contrib : R → gset string.
Hypothesis add_contrib : ∀ acc r, add acc r = contrib r ∪ acc.

Lemma scan_pages_present (acc : gset string) (pages : list P) :
    Forall (λ p, is_Some (records p)) pages →
    scan_pages key records add acc pages
    = Ok (⋃ (contrib <$> all_records records pages) ∪ acc).
Proof using add_contrib.
    intros Hall. revert acc.
    induction Hall as [|p pages [rs Hrs] _ IH]; intros acc; simpl.
    - f_equal. set_solver.
    - rewrite Hrs, IH. f_equal. simpl.
      rewrite (foldl_add add contrib) by done.
      rewrite fmap_app, union_list_app_L. set_solver.
Qed.

Lemma scan_pages_missing (acc : gset string) (pages : list P) :
    Exists (λ p, records p = None) pages →
    scan_pages key records add acc pages = Raise (KeyError key).
Proof.
    intros Hex. revert acc. induction Hex as [p pages Hp|p pages _ IH]; intros acc; simpl.
    - by rewrite Hp.
    - destruct (records p); [apply IH | done].
Qed.

Lemma present_or_missing (pages : list P) :
    Forall (λ p, is_Some (records p)) pages ∨ Exists (λ p, records p = None) pages.
Proof.
    induction pages as [|p pages [IH|IH]].
    - left. constructor.
    - destruct (records p) eqn:Hp.
      + left. constructor; [by rewrite Hp | done].
      + right. by constructor.
    - right. by constructor.
Qed.

  (** What [collect] returns, by cases on the pages and on the paginator. *)
Lemma collect_cases (resp : paginated P) :
    (Exists (λ p, records p = None) (pg_pages resp)
     ∧ collect key records add resp = Raise (KeyError key))
    ∨ (Forall (λ p, is_Some (records p)) (pg_pages resp)
       ∧ collect key records add resp
         = match pg_failure resp with
           | Some e => Raise e
           | None => Ok (⋃ (contrib <$> all_records records (pg_pages resp)))
           end).
Proof using add_contrib.
    unfold collect. destruct (present_or_missing (pg_pages resp)) as [Hall|Hex].
    - right. split; [done|]. rewrite scan_pages_present by done.
      destruct (pg_failure resp); [done|]. f_equal. set_solver.
    - left. split; [done|]. by rewrite scan_pages_missing.
Qed.

Lemma collect_Ok (resp : paginated P) (s : gset string) :
    collect key records add resp = Ok s →
    s = ⋃ (contrib <$> all_records records (pg_pages resp)).
Proof using add_contrib.
    destruct (collect_cases resp) as [[_ ->]|[_ ->]]; [done|].
    destruct (pg_failure resp); [done|]. by intros [= <-].
Qed.

Lemma same_page_records (p q : P) :
    same_page records p q → default [] (records p) ≡ₚ default [] (records q).
Proof. unfold same_page. by destruct 1. Qed.

Lemma shuffled_all_records (pages pages' : list P) :
    shuffled records pages pages' →
    all_records records pages ≡ₚ all_records records pages'.
Proof.
    intros (mid & Hperm & Hmid). unfold all_records. rewrite Hperm. clear Hperm.
    induction Hmid as [|p q mid pages' Hpq _ IH]; [done|].
    rewrite !bind_cons. by rewrite (same_page_records p q), IH.
Qed.

Lemma shuffled_missing (pages pages' : list P) :
    shuffled records pages pages' →
    Exists (λ p, records p = None) pages → Exists (λ p, records p = None) pages'.
Proof.
    intros (mid & Hperm & Hmid) Hex. rewrite Hperm in Hex. clear Hperm.
    induction Hmid as [|p q mid pages' Hpq _ IH]; [done|].
    apply Exists_cons in Hex as [Hp|Hex].
    - left. unfold same_page in Hpq. rewrite Hp in Hpq. by inversion Hpq.
    - right. by apply IH.
Qed.

Lemma shuffled_present (pages pages' : list P) :
    shuffled records pages pages' →
    Forall (λ p, is_Some (records p)) pages → Forall (λ p, is_Some (records p)) pages'.
Proof.
    intros (mid & Hperm & Hmid) Hall. rewrite Hperm in Hall. clear Hperm.
    induction Hmid as [|p q mid pages' Hpq _ IH]; [done|].
    apply Forall_cons in Hall as [Hp Hall]. constructor; [|by apply IH].
    unfold same_page in Hpq. destruct Hp as [rs Hp]. rewrite Hp in Hpq.
    inversion Hpq. by eexists.
Qed.

  (** Shuffling the pages, and the records inside them, does not change what
      [collect] returns or raises. *)
Lemma collect_shuffled (resp resp' : paginated P) :
    shuffled records (pg_pages resp) (pg_pages resp') →
    pg_failure resp = pg_failure resp' →
    collect key records add resp = collect key records add resp'.
Proof using add_contrib.
    intros Hsh Hfail.
    destruct (collect_cases resp) as [[Hex ->]|[Hall ->]].
    - unfold collect. by rewrite (scan_pages_missing _ _ (shuffled_missing _ _ Hsh Hex)).
    - destruct (collect_cases resp') as [[Hex' _]|[_ ->]].
      + apply Forall_Exists_neg in Hex'; [done|].
        eapply Forall_impl; [apply (shuffled_present _ _ Hsh Hall)|].
        intros p [rs Hp]. by rewrite Hp.
      + rewrite Hfail. destruct (pg_failure resp'); [done|]. f_equal.
        apply union_list_permutation_proper_L; try apply _.
        by rewrite (shuffled_all_records _ _ Hsh).
Qed.
End PaginateFacts.

(** ** [list_snapshot] and [list_ami] *)

Lemma add_snapshot_contrib (acc : gset string) (s : snapshot) :
  add_snapshot acc s = snapshot_contrib s ∪ acc.
Proof.
  unfold add_snapshot, snapshot_contrib, snapshot_description, snapshot_id.
  destruct (py_in MARKER _); [done|]. by rewrite union_empty_l_L.
Qed.


Lemma add_ami_contrib (acc : gset string) (image : ami) :
  add_ami acc image = ami_contrib image ∪ acc.
Proof. unfold add_ami, ami_contrib. by apply foldl_add. Qed.

Lemma elem_of_snapshot_contrib (x : string) (s : snapshot) :
  x ∈ snapshot_contrib s ↔
  is_substring MARKER (snapshot_description s) ∧ snapshot_id s = x.
Proof.
  unfold snapshot_contrib. destruct (py_in MARKER _) eqn:Hin.
  - apply py_in_spec in Hin. rewrite elem_of_singleton. naive_solver.
  - apply py_in_false in Hin. rewrite elem_of_empty. naive_solver.
Qed.

Lemma elem_of_ami_contrib (x : string) (image : ami) :
  x ∈ ami_contrib image ↔
  ∃ b, b ∈ default [] (ami_BlockDeviceMappings image) ∧ block_snapshot_id b = x.
Proof.
  unfold ami_contrib. rewrite elem_of_union_list. split.
  - intros (X & HX & Hx). apply list_elem_of_fmap in HX as (b & -> & Hb).
    apply elem_of_singleton in Hx. by exists b.
  - intros (b & Hb & <-). exists {[ block_snapshot_id b ]}. split; [|set_solver].
    apply list_elem_of_fmap. by exists b.
Qed.

(** The ids returned by [list_snapshot] are those of the marked records. *)
Lemma elem_of_list_snapshot (c : client) (S : gset string) (x : string) :
  list_snapshot c = Ok S →
  x ∈ S ↔ ∃ s, s ∈ listed_snapshots c
               ∧ is_substring MARKER (snapshot_description s) ∧ snapshot_id s = x.
Proof.
  intros HS. apply (collect_Ok _ _ _ _ add_snapshot_contrib) in HS as ->.
  rewrite elem_of_union_list. split.
  - intros (X & HX & Hx). apply list_elem_of_fmap in HX as (s & -> & Hs).
    apply elem_of_snapshot_contrib in Hx. by exists s.
  - intros (s & Hs & Hx). exists (snapshot_contrib s). split.
    + apply list_elem_of_fmap. by exists s.
    + by apply elem_of_snapshot_contrib.
Qed.

(** The ids returned by [list_ami] are those read from the listed mappings. *)
Lemma elem_of_list_ami (c : client) (B : gset string) (x : string) :
  list_ami c = Ok B →
  x ∈ B ↔ ∃ b, b ∈ listed_blocks c ∧ block_snapshot_id b = x.
Proof.
  intros HB. apply (collect_Ok _ _ _ _ add_ami_contrib) in HB as ->.
  rewrite elem_of_union_list. unfold listed_blocks. split.
  - intros (X & HX & Hx). apply list_elem_of_fmap in HX as (image & -> & Himage).
    apply elem_of_ami_contrib in Hx as (b & Hb & Hx). exists b. split; [|done].
    apply list_elem_of_bind. by exists image.
  - intros (b & Hb & Hx). apply list_elem_of_bind in Hb as (image & Hb & Himage).
    exists (ami_contrib image). split.
    + apply list_elem_of_fmap. by exists image.
    + apply elem_of_ami_contrib. by exists b.
Qed.

Lemma lacks_snapshot_id_empty (b : block_device) :
  lacks_snapshot_id b → block_snapshot_id b = EmptyString.
Proof. unfold block_snapshot_id. by intros [-> | ->]. Qed.

(** C2: a snapshot record is classified image-derived, and its id added to the
    result set, exactly when its description contains the substring
    "Created by CreateImage"; so the set returned by the snapshot collector
    holds exactly the ids of the listed records with such a description.  A
    record described as created by CreateImage is classified image-derived and
    one described as "manual backup" is not. *)
Theorem list_snapshot_classification (c : client) (S : gset string) :
  list_snapshot c = Ok S →
  (∀ s acc,
     (is_substring MARKER (snapshot_description s)
      ∧ add_snapshot acc s = {[ snapshot_id s ]} ∪ acc)
     ∨ (¬ is_substring MARKER (snapshot_description s) ∧ add_snapshot acc s = acc))
  ∧ (∀ x, x ∈ S ↔ ∃ s, s ∈ listed_snapshots c
                        ∧ is_substring MARKER (snapshot_description s)
                        ∧ snapshot_id s = x)
  ∧ add_snapshot ∅ (snap "Created by CreateImage(i-0123...) for ami-0123... from vol-0123..."
                         "snap-0123")
    = {[ "snap-0123" ]}
  ∧ add_snapshot ∅ (snap "manual backup" "snap-0456") = ∅.
Proof.
  intros HS. split; [|split; [|split]].
  - intros s acc. unfold add_snapshot. fold (snapshot_description s) (snapshot_id s).
    destruct (py_in MARKER (snapshot_description s)) eqn:Hin.
    + left. by apply py_in_spec in Hin.
    + right. by apply py_in_false in Hin.
  - intros x. by apply elem_of_list_snapshot.
  - by vm_compute.
  - by vm_compute.
Qed.

Lemma list_snapshot_classification_witness :
  list_snapshot client_a = Ok {[ "snap-1"; "snap-2"; "snap-3" ]}
  ∧ ∃ s, s ∈ listed_snapshots client_a
         ∧ is_substring MARKER (snapshot_description s) ∧ snapshot_id s = "snap-2".
Proof.
  assert (list_snapshot client_a = Ok {[ "snap-1"; "snap-2"; "snap-3" ]}) as HS
    by (vm_compute; reflexivity).
  split; [exact HS|].
  destruct (list_snapshot_classification client_a _ HS) as (_ & Hiff & _ & _).
  apply Hiff. set_solver.
Defined.




(** C7: the sets returned (or the error raised) by [list_snapshot] and by
    [list_ami] do not depend on the order of the pages, nor on the order of
    the records within the pages. *)
Theorem collectors_ignore_page_order (c c' : client) :
  shuffled page_Snapshots (pg_pages (describe_snapshots c)) (pg_pages (describe_snapshots c')) →
  pg_failure (describe_snapshots c) = pg_failure (describe_snapshots c') →
  shuffled page_Images (pg_pages (describe_images c)) (pg_pages (describe_images c')) →
  pg_failure (describe_images c) = pg_failure (describe_images c') →
  list_snapshot c = list_snapshot c' ∧ list_ami c = list_ami c'.
Proof.
  intros Hs Hsf Hi Hif. split.
  - by apply (collect_shuffled _ _ _ _ add_snapshot_contrib).
  - by apply (collect_shuffled _ _ _ _ add_ami_contrib).
Qed.

Lemma collectors_ignore_page_order_witness :
  list_snapshot client_a = list_snapshot client_a' ∧ list_ami client_a = list_ami client_a'.
Proof.
  apply (collectors_ignore_page_order client_a client_a'); [|reflexivity| |reflexivity].
  - exists (rev snapshots_a). split; [apply Permutation_rev|].
    repeat constructor.
  - exists (rev images_a). split; [apply Permutation_rev|].
    repeat constructor.
Defined.

(** ** Tagging and export *)

Lemma grant_tag_fails (c : client) (ids : list string) (e : exn) (w : world) :
  create_tags_fault c ids = Some e →
  grant_tag c ids w = (Raise e, log_event (EvCreateTags ids TAGS) w).
Proof. intros H. unfold grant_tag. by rewrite H. Qed.

Lemma grant_tag_succeeds (c : client) (ids : list string) (w : world) :
  create_tags_fault c ids = None →
  grant_tag c ids w
  = (Ok (), set_tags (apply_tags ids TAGS (provider_tags w))
                     (log_event (EvCreateTags ids TAGS) w)).
Proof. intros H. unfold grant_tag. by rewrite H. Qed.

(** [grant_tag] issues one call and leaves the file system alone. *)
Lemma grant_tag_effect (c : client) (ids : list string) (w : world) :
  let w' := (grant_tag c ids w).2 in
  appended w w' [EvCreateTags ids TAGS]
  ∧ export_file w' = export_file w ∧ open_handles w' = open_handles w
  ∧ open_fault w' = open_fault w ∧ write_fault w' = write_fault w.
Proof. unfold grant_tag, appended. by destruct (create_tags_fault c ids). Qed.

(** The writes of [write_all] are lines of ids of the list, whatever the disk
    does; tags, handles and the disk's behaviour are untouched. *)
Lemma write_all_effect (ids : list string) (w : world) :
  let w' := (write_all ids w).2 in
  (∃ evs, appended w w' evs
          ∧ Forall (λ ev, ∃ id, id ∈ ids ∧ ev = EvWrite (id +:+ newline)) evs)
  ∧ provider_tags w' = provider_tags w ∧ open_handles w' = open_handles w
  ∧ open_fault w' = open_fault w ∧ write_fault w' = write_fault w.
Proof.
  revert w. induction ids as [|id ids IH]; intros w; simpl.
  - split; [|done]. exists []. split; [|done]. unfold appended. by rewrite app_nil_r.
  - unfold bind, file_write.
    destruct (write_fault _ _ _) as [e|]; simpl.
    + split; [|done]. exists [EvWrite (id +:+ newline)]. split; [done|].
      constructor; [|done]. exists id. split; [left|done].
    + match goal with |- context [write_all ids ?w0] => specialize (IH w0) end.
      simpl in IH. destruct IH as ((evs & Happ & Hevs) & Ht & Hh & Ho & Hw).
      split; [|done]. exists (EvWrite (id +:+ newline) :: evs). split.
      * unfold appended in *. simpl in Happ. by rewrite Happ, <- app_assoc.
      * constructor; [exists id; split; [left|done]|].
        eapply Forall_impl; [exact Hevs|]. intros ev (id' & Hid' & ->).
        exists id'. split; [by right|done].
Qed.

(** On a healthy disk every line is appended to the open file. *)
Lemma write_all_healthy (ids : list string) (content : string) (w : world) :
  healthy_disk w →
  export_file w = Some content →
  write_all ids w
  = (Ok (), World (provider_tags w)
                  (Some (content +:+ export_content ids))
                  (open_handles w)
                  (trace w ++ ((λ id, EvWrite (id +:+ newline)) <$> ids))
                  (open_fault w) (write_fault w)).
Proof.
  revert content w. induction ids as [|id ids IH]; intros content w [Hopen Hwrite] Hfile.
  - destruct w as [t f h tr o wf]; simpl in *. subst f.
    by rewrite append_nil_r, app_nil_r.
  - simpl. unfold bind, file_write. simpl. rewrite Hwrite, Hfile. simpl.
    rewrite (IH (content +:+ id +:+ newline)); [|by split|done].
    simpl. by rewrite !append_assoc, <- app_assoc.
Qed.

(** [export_text] gives back every handle it takes, on every path. *)
Lemma export_text_releases (ids : gset string) (w : world) :
  open_handles (export_text ids w).2 = open_handles w.
Proof.
  unfold export_text, bind, file_open_w. simpl.
  destruct (open_fault w); [done|]. unfold finally.
  match goal with |- context [write_all ?l ?w0] =>
    pose proof (write_all_effect l w0) as (_ & _ & Hh & _);
    destruct (write_all l w0) as [r w1] end.
  simpl in *. by rewrite Hh.
Qed.

(** The calls [export_text] issues: one open, then lines of ids of the set,
    then at most one close; it never touches the provider. *)
Lemma export_text_effect (ids : gset string) (w : world) :
  let w' := (export_text ids w).2 in
  (∃ evs, appended w w' (EvOpen EXPORT_FILE_NAME "w" :: evs)
          ∧ Forall (λ ev, ev = EvClose
                          ∨ ∃ id, id ∈ ids ∧ ev = EvWrite (id +:+ newline)) evs)
  ∧ provider_tags w' = provider_tags w.
Proof.
  unfold export_text, bind, file_open_w. simpl.
  destruct (open_fault w); simpl.
  - split; [|done]. by exists [].
  - unfold finally.
    match goal with |- context [write_all ?l ?w0] =>
      pose proof (write_all_effect l w0) as ((evs & Happ & Hevs) & Ht & _);
      destruct (write_all l w0) as [r w1] end.
    simpl in *. split; [|done]. exists (evs ++ [EvClose]). split.
    + unfold appended in *. simpl in *. by rewrite Happ, <- !app_assoc.
    + apply Forall_app. split; [|by constructor; [left|]].
      eapply Forall_impl; [exact Hevs|]. intros ev (id & Hid & ->).
      right. exists id. split; [by apply elem_of_elements|done].
Qed.

(** On a healthy disk [export_text] replaces the file by one line per id. *)
Lemma export_text_healthy (ids : gset string) (w : world) :
  healthy_disk w →
  export_text ids w
  = (Ok (), World (provider_tags w)
                  (Some (export_content (elements ids)))
                  (open_handles w)
                  (trace w ++ EvOpen EXPORT_FILE_NAME "w"
                     :: ((λ id, EvWrite (id +:+ newline)) <$> elements ids) ++ [EvClose])
                  (open_fault w) (write_fault w)).
Proof.
  intros [Hopen Hwrite]. unfold export_text, bind, file_open_w. simpl.
  rewrite Hopen. unfold finally.
  rewrite (write_all_healthy _ EmptyString); [|by split|done].
  rewrite append_nil_l. unfold file_close, set_handles, log_event. simpl.
  by rewrite <- !app_assoc, Hopen.
Qed.

(** ** [main] *)

Lemma truthy_true (s : gset string) : truthy s = true ↔ s ≠ ∅.
Proof. unfold truthy. rewrite negb_true_iff, bool_decide_eq_false. done. Qed.

Lemma truthy_false (s : gset string) : truthy s = false ↔ s = ∅.
Proof. unfold truthy. rewrite negb_false_iff, bool_decide_eq_true. done. Qed.

Lemma main_snapshots_fail (c : client) (w : world) (e : exn) :
  list_snapshot c = Raise e →
  main c w = (Raise (Exception_from MAIN_ERROR e), w).
Proof. intros H. unfold main, try_except, bind, lift. by rewrite H. Qed.

Lemma main_images_fail (c : client) (w : world) (A : gset string) (e : exn) :
  list_snapshot c = Ok A → list_ami c = Raise e →
  main c w = (Raise (Exception_from MAIN_ERROR e), w).
Proof. intros HA HB. unfold main, try_except, bind, lift. by rewrite HA, HB. Qed.

Lemma main_no_orphans (c : client) (w : world) (A B : gset string) :
  list_snapshot c = Ok A → list_ami c = Ok B → reconcile A B = ∅ →
  main c w = (Ok ∅, w).
Proof.
  intros HA HB HO. unfold main, try_except, bind, lift. rewrite HA, HB.
  apply truthy_false in HO as Ht. rewrite Ht. simpl. by rewrite HO.
Qed.

Lemma main_orphans (c : client) (w : world) (A B : gset string) :
  list_snapshot c = Ok A → list_ami c = Ok B → reconcile A B ≠ ∅ →
  main c w
  = match grant_tag c (elements (reconcile A B)) w with
    | (Raise e, w1) => (Raise (Exception_from MAIN_ERROR e), w1)
    | (Ok _, w1) =>
        match export_text (reconcile A B) w1 with
        | (Raise e, w2) => (Raise (Exception_from MAIN_ERROR e), w2)
        | (Ok _, w2) => (Ok (reconcile A B), w2)
        end
    end.
Proof.
  intros HA HB HO. unfold main, try_except, bind, lift. rewrite HA, HB.
  apply truthy_true in HO as Ht. rewrite Ht.
  destruct (grant_tag c _ w) as [[[]|e] w1]; [|done].
  by destruct (export_text _ w1) as [[[]|e] w2].
Qed.

(** What [main] returns or raises, phase by phase. *)
Lemma main_outcome (c : client) (w : world) :
  (main c w).1
  = match phase_failure c w with
    | Some (_, cause) => Raise (Exception_from MAIN_ERROR cause)
    | None =>
        match list_snapshot c, list_ami c with
        | Ok A, Ok B => Ok (reconcile A B)
        | _, _ => Ok ∅
        end
    end.
Proof.
  unfold phase_failure.
  destruct (list_snapshot c) as [A|e] eqn:HA; [|by rewrite (main_snapshots_fail c w e)].
  destruct (list_ami c) as [B|e] eqn:HB; [|by rewrite (main_images_fail c w A e)].
  destruct (truthy (reconcile A B)) eqn:Ht.
  - apply truthy_true in Ht. rewrite (main_orphans c w A B) by done.
    destruct (grant_tag c _ w) as [[[]|e] w1]; [|done].
    by destruct (export_text _ w1) as [[[]|e] w2].
  - apply truthy_false in Ht. rewrite (main_no_orphans c w A B) by done.
    by rewrite Ht.
Qed.

(** C1: the set [main] returns is the set difference of the image-derived
    ids and the referenced ids: an id is returned exactly when it is in the
    first set and not in the second; reconciling a set with itself or the
    empty set with anything gives the empty set, and reconciling with the
    empty set gives the set back. *)
Theorem main_returns_difference (c : client) (w : world) (A B : gset string) :
  list_snapshot c = Ok A → list_ami c = Ok B →
  (main c w).1
  = match phase_failure c w with
    | Some (_, cause) => Raise (Exception_from MAIN_ERROR cause)
    | None => Ok (A ∖ B)
    end
  ∧ (∀ x, x ∈ reconcile A B ↔ x ∈ A ∧ x ∉ B)
  ∧ reconcile A A = ∅ ∧ reconcile A ∅ = A ∧ reconcile ∅ B = ∅.
Proof.
  intros HA HB. split; [|unfold reconcile; set_solver].
  by rewrite main_outcome, HA, HB.
Qed.

Lemma main_returns_difference_witness :
  (main client_a world_a).1 = Ok {[ "snap-2" ]}.
Proof.
  destruct (main_returns_difference client_a world_a
              {[ "snap-1"; "snap-2"; "snap-3" ]} {[ "snap-1"; "snap-3" ]})
    as (Hmain & _); [by vm_compute..|].
  rewrite Hmain. by vm_compute.
Defined.

(** C8: when the computed orphan set is empty, [main] returns the empty set
    and leaves the world as it found it: no call is issued, the provider's
    tags and the export file are unchanged. *)
Theorem main_empty_is_noop (c : client) (w : world) (A B : gset string) :
  list_snapshot c = Ok A → list_ami c = Ok B → reconcile A B = ∅ →
  main c w = (Ok ∅, w)
  ∧ appended w (main c w).2 []
  ∧ provider_tags (main c w).2 = provider_tags w
  ∧ export_file (main c w).2 = export_file w.
Proof.
  intros HA HB HO. rewrite (main_no_orphans c w A B) by done.
  split; [done|]. split; [|done]. unfold appended. simpl. by rewrite app_nil_r.
Qed.

Lemma main_empty_is_noop_witness :
  main client_manual_only world_a = (Ok ∅, world_a).
Proof.
  apply (main_empty_is_noop client_manual_only world_a ∅ ∅); by vm_compute.
Defined.

(** C4 (as amended): when the tag-creation call fails on a non-empty orphan
    set, [main] returns nothing: it raises the error of the call wrapped in
    its own exception, after having issued the tagging call only. *)
Theorem main_tag_failure_raises (c : client) (w : world) (A B : gset string) (e : exn) :
  list_snapshot c = Ok A → list_ami c = Ok B → reconcile A B ≠ ∅ →
  create_tags_fault c (elements (reconcile A B)) = Some e →
  main c w = (Raise (Exception_from MAIN_ERROR e),
              log_event (EvCreateTags (elements (reconcile A B)) TAGS) w).
Proof.
  intros HA HB HO He. rewrite (main_orphans c w A B) by done.
  by rewrite (grant_tag_fails c _ e).
Qed.

Lemma main_tag_failure_raises_witness :
  (main client_tag_fails world_a).1 = Raise (Exception_from MAIN_ERROR tag_error).
Proof.
  rewrite (main_tag_failure_raises client_tag_fails world_a
             {[ "snap-1"; "snap-2"; "snap-3" ]} {[ "snap-1"; "snap-3" ]} tag_error);
    [done | by vm_compute..].
Defined.

(** Counterexample to C4 as stated: with the orphan set {snap-2} and a failing tagging
    call, [main] raises and so returns no set to its caller. *)
Lemma main_tag_failure_returns_nothing :
  list_snapshot client_tag_fails = Ok {[ "snap-1"; "snap-2"; "snap-3" ]}
  ∧ list_ami client_tag_fails = Ok {[ "snap-1"; "snap-3" ]}
  ∧ reconcile {[ "snap-1"; "snap-2"; "snap-3" ]} {[ "snap-1"; "snap-3" ]} = {[ "snap-2" ]}
  ∧ create_tags_fault client_tag_fails [ "snap-2" ] = Some tag_error
  ∧ ¬ ∃ S, (main client_tag_fails world_a).1 = Ok S.
Proof.
  split; [by vm_compute|]. split; [by vm_compute|]. split; [by vm_compute|].
  split; [done|]. intros [S HS]. by vm_compute in HS.
Qed.

(** The calls of a run with a non-empty orphan set. *)
Lemma main_orphans_effect (c : client) (w : world) (A B : gset string) :
  list_snapshot c = Ok A → list_ami c = Ok B → reconcile A B ≠ ∅ →
  ∃ evs,
    appended w (main c w).2 (EvCreateTags (elements (reconcile A B)) TAGS :: evs)
    ∧ Forall (λ ev, is_tag_event ev = false
                    ∧ ∀ data, ev = EvWrite data →
                              ∃ id, id ∈ reconcile A B ∧ data = id +:+ newline) evs
    ∧ (∀ e, create_tags_fault c (elements (reconcile A B)) = Some e →
            evs = []
            ∧ export_file (main c w).2 = export_file w
            ∧ (main c w).1 = Raise (Exception_from MAIN_ERROR e)).
Proof.
  intros HA HB HO. rewrite (main_orphans c w A B) by done.
  destruct (create_tags_fault c (elements (reconcile A B))) as [e|] eqn:Htag.
  - rewrite (grant_tag_fails c _ e) by done. exists []. split; [done|].
    split; [done|]. by intros e' [= <-].
  - rewrite (grant_tag_succeeds c) by done.
    match goal with |- context [export_text ?O ?w0] =>
      pose proof (export_text_effect O w0) as ((evs & Happ & Hevs) & _);
      destruct (export_text O w0) as [[[]|e] w2] end;
      simpl in Happ;
      (exists (EvOpen EXPORT_FILE_NAME "w" :: evs); split; [|split; [|done]];
       [ unfold appended in *; simpl in *; by rewrite Happ, <- app_assoc
       | constructor; [done|]; eapply Forall_impl; [exact Hevs|];
         intros ev [-> | (id & Hid & ->)];
         [ done | split; [done|]; intros data [= <-]; by exists id ] ]).
Qed.

(** C5: in a run with a non-empty orphan set the tagging call is the first
    call issued; whatever follows is no tagging call, and every write is the
    line of an id of the tagged set.  If the tagging call fails nothing
    follows it, the export file keeps its content and [main] raises. *)
Theorem main_tags_before_export (c : client) (w : world) (A B : gset string) :
  list_snapshot c = Ok A → list_ami c = Ok B → reconcile A B ≠ ∅ →
  ∃ evs,
    appended w (main c w).2 (EvCreateTags (elements (reconcile A B)) TAGS :: evs)
    ∧ Forall (λ ev, is_tag_event ev = false
                    ∧ ∀ data, ev = EvWrite data →
                              ∃ id, id ∈ reconcile A B ∧ data = id +:+ newline) evs
    ∧ (∀ e, create_tags_fault c (elements (reconcile A B)) = Some e →
            evs = []
            ∧ export_file (main c w).2 = export_file w
            ∧ (main c w).1 = Raise (Exception_from MAIN_ERROR e)).
Proof. apply main_orphans_effect. Qed.

Lemma main_tags_before_export_witness :
  ∃ evs, appended world_a (main client_tag_fails world_a).2
           (EvCreateTags [ "snap-2" ] TAGS :: evs).
Proof.
  destruct (main_tags_before_export client_tag_fails world_a
              {[ "snap-1"; "snap-2"; "snap-3" ]} {[ "snap-1"; "snap-3" ]})
    as (evs & Happ & _); [by vm_compute..|].
  by exists evs.
Defined.

(** C6 (as amended): [main] raises exactly when one of its phases raises, and
    what it raises is then the error of that phase wrapped in an exception
    whose message is the same for every phase. *)
Theorem main_wraps_every_error (c : client) (w : world) (e : exn) :
  (main c w).1 = Raise e
  ↔ ∃ p cause, phase_failure c w = Some (p, cause)
               ∧ e = Exception_from MAIN_ERROR cause.
Proof.
  rewrite main_outcome. destruct (phase_failure c w) as [[p cause]|].
  - split.
    + intros [= <-]. by exists p, cause.
    + by intros (p' & cause' & [= <- <-] & ->).
  - split.
    + by destruct (list_snapshot c), (list_ami c).
    + by intros (p & cause & ? & _).
Qed.

(** Counterexample to C6 as stated: a listing failure of the snapshot inventory and the
    same failure of the image inventory make [main] raise the same
    exception, so nothing in it tells which inventory failed. *)
Lemma main_error_hides_phase :
  phase_failure client_snapshots_fail world_a = Some (SnapshotInventory, listing_error)
  ∧ phase_failure client_images_fail world_a = Some (ImageInventory, listing_error)
  ∧ (main client_snapshots_fail world_a).1 = (main client_images_fail world_a).1
  ∧ ¬ ∃ identify : exn → phase,
        ∀ c w e, (main c w).1 = Raise e →
                 ∃ cause, phase_failure c w = Some (identify e, cause).
Proof.
  assert (phase_failure client_snapshots_fail world_a
          = Some (SnapshotInventory, listing_error)) as Hs by by vm_compute.
  assert (phase_failure client_images_fail world_a
          = Some (ImageInventory, listing_error)) as Hi by by vm_compute.
  assert ((main client_snapshots_fail world_a).1
          = Raise (Exception_from MAIN_ERROR listing_error)) as Hms
    by (rewrite main_outcome, Hs; done).
  assert ((main client_images_fail world_a).1
          = Raise (Exception_from MAIN_ERROR listing_error)) as Hmi
    by (rewrite main_outcome, Hi; done).
  split; [done|]. split; [done|]. split; [by rewrite Hms, Hmi|].
  intros [identify Hid].
  destruct (Hid _ _ _ Hms) as [cs Hcs]. destruct (Hid _ _ _ Hmi) as [ci Hci].
  rewrite Hs in Hcs. rewrite Hi in Hci.
  injection Hcs as Hcs _. injection Hci as Hci _. congruence.
Qed.




(** When the disk fills up, [export_text] raises the error of the file system
    and the handle has been released. *)
Example export_text_disk_full :
  (export_text {[ "snap-1"; "snap-2" ]} world_full).1
  = Raise (OSError "No space left on device")
  ∧ open_handles (export_text {[ "snap-1"; "snap-2" ]} world_full).2 = 0.
Proof. by vm_compute. Qed.

(** C10: when some listed image has a block-device mapping without an EBS
    snapshot id, the empty string is in the referenced set and hence not in
    the orphan set: a marked snapshot record without an id, which the
    snapshot collector inserts as the empty string, is not returned by
    [main], not passed to the tagging call and not written to the export. *)
Theorem empty_id_is_masked (c : client) (w : world) (A B : gset string) :
  list_snapshot c = Ok A → list_ami c = Ok B →
  (∃ b, b ∈ listed_blocks c ∧ lacks_snapshot_id b) →
  EmptyString ∈ B
  ∧ (∀ s, s ∈ listed_snapshots c →
          is_substring MARKER (snapshot_description s) →
          snap_SnapshotId s = None → EmptyString ∈ A)
  ∧ (EmptyString ∉ reconcile A B)
  ∧ (∀ S, (main c w).1 = Ok S → EmptyString ∉ S)
  ∧ ∃ evs, appended w (main c w).2 evs
           ∧ Forall (λ ev, (∀ ids tags, ev = EvCreateTags ids tags → EmptyString ∉ ids)
                           ∧ ev ≠ EvWrite (EmptyString +:+ newline)) evs.
Proof.
  intros HA HB (b & Hb & Hlacks).
  assert (EmptyString ∈ B) as HinB.
  { apply (elem_of_list_ami c B _ HB). exists b. split; [done|].
    by apply lacks_snapshot_id_empty. }
  assert (EmptyString ∉ reconcile A B) as HnotO by (unfold reconcile; set_solver).
  split; [done|]. split; [|split; [done|split]].
  - intros s Hs Hsub Hid. apply (elem_of_list_snapshot c A _ HA).
    exists s. split; [done|]. split; [done|]. unfold snapshot_id. by rewrite Hid.
  - intros S. rewrite main_outcome, HA, HB.
    destruct (phase_failure c w) as [[p cause]|]; [done|]. by intros [= <-].
  - destruct (decide (reconcile A B = ∅)) as [HO|HO].
    + rewrite (main_no_orphans c w A B) by done. exists []. split; [|done].
      unfold appended. simpl. by rewrite app_nil_r.
    + destruct (main_orphans_effect c w A B HA HB HO) as (evs & Happ & Hevs & _).
      eexists. split; [exact Happ|]. constructor.
      * split; [|done]. intros ids tags [= <- _].
        by rewrite elem_of_elements.
      * eapply Forall_impl; [exact Hevs|]. intros ev [Htag Hwrite]. split.
        -- intros ids tags ->. done.
        -- intros ->. destruct (Hwrite _ eq_refl) as (id & Hid & Heq).
           assert (id = EmptyString) as ->; [|done].
           destruct id as [|a id]; [done|].
           rewrite append_nil_l, append_cons in Heq. injection Heq as _ Heq.
           by destruct id.
Qed.

Lemma empty_id_is_masked_witness :
  EmptyString ∈ ({[ EmptyString; "snap-1"; "snap-2"; "snap-3" ]} : gset string)
  ∧ (main client_masked world_a).1 = Ok {[ "snap-2" ]}.
Proof.
  destruct (empty_id_is_masked client_masked world_a
              {[ EmptyString; "snap-1"; "snap-2"; "snap-3" ]}
              {[ EmptyString; "snap-1"; "snap-3" ]})
    as (_ & Hins & _); [by vm_compute..| |].
  - exists (BlockDevice (Some (EbsDevice None))). split; [|by right].
    unfold listed_blocks. simpl. set_solver.
  - split; [|by vm_compute].
    apply (Hins (Snapshot (Some MARKER) None)); [|by apply py_in_spec|done].
    unfold listed_snapshots. simpl. set_solver.
Defined.

(** ** End to end *)

(** Three images were created and the second deregistered: its snapshot is
    the orphan, it is tagged, and the export file holds its id alone. *)
Example run_after_deregistration :
  let r := main client_a world_a in
  r.1 = Ok {[ "snap-2" ]}
  ∧ provider_tags r.2 = {[ "snap-2" := {[ "NotAttachedAMI" := "True" ]} ]}
  ∧ export_file r.2 = Some ("snap-2" +:+ newline)
  ∧ open_handles r.2 = 0
  ∧ trace r.2 = [ EvCreateTags [ "snap-2" ] TAGS;
                  EvOpen EXPORT_FILE_NAME "w";
                  EvWrite ("snap-2" +:+ newline);
                  EvClose ].
Proof. by vm_compute. Qed.

(** An image without any block-device mapping references nothing. *)
Example image_without_mappings (acc : gset string) :
  add_ami acc (Ami None) = acc ∧ add_ami acc (Ami (Some [])) = acc.
Proof. done. Qed.


(** * Further properties of the collectors *)

Section CollectRaises.
Context {P R : Type}.
Variable key : string.
Variable records : P → option (list R).
Variable add : gset string → R → gset string.
Variable contrib : R → gset string.
Hypothesis add_contrib : ∀ acc r, add acc r = contrib r ∪ acc.

(** When and what [collect] raises. *)
Lemma collect_Raise_iff (resp : paginated P) (e : exn) :
  collect key records add resp = Raise e
  ↔ (Exists (λ p, records p = None) (pg_pages resp) ∧ e = KeyError key)
    ∨ (Forall (λ p, is_Some (records p)) (pg_pages resp) ∧ pg_failure resp = Some e).
Proof using add_contrib.
  destruct (collect_cases key records add contrib add_contrib resp)
    as [[Hex ->]|[Hall ->]].
  - split.
    + intros [= <-]. by left.
    + intros [[_ ->]|[Hall _]]; [done|].
      exfalso. apply Forall_Exists_neg in Hex; [done|].
      eapply Forall_impl; [exact Hall|]. intros p [rs Hp]. by rewrite Hp.
  - split.
    + destruct (pg_failure resp) as [e'|]; [|done]. intros [= <-]. by right.
    + intros [[Hex _]|[_ ->]]; [|done].
      exfalso. apply Forall_Exists_neg in Hex; [done|].
      eapply Forall_impl; [exact Hall|]. intros p [rs Hp]. by rewrite Hp.
Qed.

(** When [collect] returns, and what. *)
Lemma collect_Ok_iff (resp : paginated P) (s : gset string) :
  collect key records add resp = Ok s
  ↔ Forall (λ p, is_Some (records p)) (pg_pages resp)
    ∧ pg_failure resp = None
    ∧ s = ⋃ (contrib <$> all_records records (pg_pages resp)).
Proof using add_contrib.
  destruct (collect_cases key records add contrib add_contrib resp)
    as [[Hex ->]|[Hall ->]].
  - split; [done|]. intros (Hall & _ & _).
    exfalso. apply Forall_Exists_neg in Hex; [done|].
    eapply Forall_impl; [exact Hall|]. intros p [rs Hp]. by rewrite Hp.
  - destruct (pg_failure resp) as [e'|].
    + split; [done|]. by intros (_ & ? & _).
    + split; [by intros [= <-]|]. by intros (_ & _ & ->).
Qed.
End CollectRaises.

Lemma union_ami_contrib (images : list ami) :
  ⋃ (ami_contrib <$> images)
  = list_to_set (block_snapshot_id
                   <$> (images ≫= (λ image, default [] (ami_BlockDeviceMappings image)))).
Proof.
  apply set_eq. intros x.
  rewrite elem_of_union_list, elem_of_list_to_set, list_elem_of_fmap. split.
  - intros (X & HX & Hx). apply list_elem_of_fmap in HX as (image & -> & Himage).
    apply elem_of_ami_contrib in Hx as (b & Hb & Hx). exists b. split; [done|].
    apply list_elem_of_bind. by exists image.
  - intros (b & -> & Hb). apply list_elem_of_bind in Hb as (image & Hb & Himage).
    exists (ami_contrib image). split.
    + apply list_elem_of_fmap. by exists image.
    + apply elem_of_ami_contrib. by exists b.
Qed.

(** X1: [list_snapshot] raises in two ways only: [KeyError] on the key
    [Snapshots] when some page lacks that key, whatever else the listing
    holds; otherwise the error the paginator ends with, when it ends with
    one. *)
Theorem list_snapshot_raises (c : client) (e : exn) :
  list_snapshot c = Raise e
  ↔ (Exists (λ p, page_Snapshots p = None) (pg_pages (describe_snapshots c))
     ∧ e = KeyError "Snapshots")
    ∨ (Forall (λ p, is_Some (page_Snapshots p)) (pg_pages (describe_snapshots c))
       ∧ pg_failure (describe_snapshots c) = Some e).
Proof. apply (collect_Raise_iff _ _ _ _ add_snapshot_contrib). Qed.

Lemma list_snapshot_raises_witness :
  list_snapshot client_missing_key = Raise (KeyError "Snapshots").
Proof.
  apply (list_snapshot_raises client_missing_key). left. split; [|done].
  apply Exists_exists. exists (SnapshotsPage None). split; [|done].
  simpl. set_solver.
Defined.

(** X2: [list_ami] returns exactly when every page has its [Images] key and
    the paginator ends without error, and it then returns the set of the ids
    read from all block-device mappings of all listed images, a mapping
    without id being read as the empty string. *)
Theorem list_ami_returns (c : client) (B : gset string) :
  list_ami c = Ok B
  ↔ Forall (λ p, is_Some (page_Images p)) (pg_pages (describe_images c))
    ∧ pg_failure (describe_images c) = None
    ∧ B = list_to_set (block_snapshot_id <$> listed_blocks c).
Proof.
  unfold list_ami, listed_blocks.
  rewrite (collect_Ok_iff _ _ _ _ add_ami_contrib). by rewrite union_ami_contrib.
Qed.

Lemma list_ami_returns_witness :
  list_ami client_a = Ok (list_to_set (block_snapshot_id <$> listed_blocks client_a)).
Proof.
  apply (list_ami_returns client_a). split; [|done].
  repeat constructor; by eexists.
Defined.

(** X3: when either listing raises, [main] raises the wrapped error and has
    done nothing: no call was issued, tags and export file are as before. *)
Theorem main_listing_failure_aborts (c : client) (w : world) (e : exn) :
  list_snapshot c = Raise e ∨ ((∃ A, list_snapshot c = Ok A) ∧ list_ami c = Raise e) →
  main c w = (Raise (Exception_from MAIN_ERROR e), w).
Proof.
  intros [Hs | [[A HA] Hi]].
  - by apply main_snapshots_fail.
  - by apply (main_images_fail c w A).
Qed.

Lemma main_listing_failure_aborts_witness :
  main client_images_fail world_a
  = (Raise (Exception_from MAIN_ERROR listing_error), world_a).
Proof.
  apply (main_listing_failure_aborts client_images_fail world_a listing_error).
  right. split; [|by vm_compute]. eexists. by vm_compute.
Defined.

(** X4: the sets the collectors return depend on which records are listed,
    not on how often: two listings with the same snapshot records give the
    same image-derived set, and two with the same mappings give the same
    referenced set. *)
Theorem collectors_ignore_repetition (c c' : client) (A A' B B' : gset string) :
  list_snapshot c = Ok A → list_snapshot c' = Ok A' →
  list_ami c = Ok B → list_ami c' = Ok B' →
  ((∀ s, s ∈ listed_snapshots c ↔ s ∈ listed_snapshots c') → A = A')
  ∧ ((∀ b, b ∈ listed_blocks c ↔ b ∈ listed_blocks c') → B = B').
Proof.
  intros HA HA' HB HB'. split; intros Hsame; apply set_eq; intros x.
  - rewrite (elem_of_list_snapshot c A x HA), (elem_of_list_snapshot c' A' x HA').
    by setoid_rewrite Hsame.
  - rewrite (elem_of_list_ami c B x HB), (elem_of_list_ami c' B' x HB').
    by setoid_rewrite Hsame.
Qed.

Lemma collectors_ignore_repetition_witness :
  ({[ "snap-1"; "snap-2"; "snap-3" ]} : gset string)
  = {[ "snap-2"; "snap-1"; "snap-2"; "snap-3" ]}.
Proof.
  destruct (collectors_ignore_repetition client_a client_repeated_page
              {[ "snap-1"; "snap-2"; "snap-3" ]} {[ "snap-2"; "snap-1"; "snap-2"; "snap-3" ]}
              {[ "snap-1"; "snap-3" ]} {[ "snap-1"; "snap-3" ]})
    as [HA _]; [(first [reflexivity | by vm_compute])..|].
  apply HA. intros s. unfold listed_snapshots. simpl. rewrite !elem_of_cons. tauto.
Defined.

(** * Further properties of [main] *)

(** [main] returns only after both collectors returned. *)
Lemma main_Ok_collectors (c : client) (w : world) (S : gset string) :
  (main c w).1 = Ok S →
  ∃ A B, list_snapshot c = Ok A ∧ list_ami c = Ok B ∧ S = reconcile A B.
Proof.
  intros Hmain.
  destruct (list_snapshot c) as [A|e] eqn:HA;
    [|by rewrite (main_snapshots_fail c w e) in Hmain].
  destruct (list_ami c) as [B|e] eqn:HB;
    [|by rewrite (main_images_fail c w A e) in Hmain].
  exists A, B. split; [done|]. split; [done|].
  destruct (decide (reconcile A B = ∅)) as [HO|HO].
  - rewrite (main_no_orphans c w A B) in Hmain by done. simpl in Hmain. congruence.
  - rewrite (main_orphans c w A B) in Hmain by done.
    destruct (grant_tag c _ w) as [[[]|e] w1]; [|done].
    destruct (export_text _ w1) as [[[]|e] w2]; [|done].
    simpl in Hmain. congruence.
Qed.

(** X5: a set returned by [main] holds exactly the ids of the listed
    snapshot records whose description carries the marker and that no
    block-device mapping of a listed image refers to. *)
Theorem main_returns_unreferenced_image_snapshots (c : client) (w : world) (S : gset string) :
  (main c w).1 = Ok S →
  ∀ x, x ∈ S ↔
       (∃ s, s ∈ listed_snapshots c
             ∧ is_substring MARKER (snapshot_description s) ∧ snapshot_id s = x)
       ∧ ¬ ∃ b, b ∈ listed_blocks c ∧ block_snapshot_id b = x.
Proof.
  intros (A & B & HA & HB & ->)%main_Ok_collectors x.
  unfold reconcile. rewrite elem_of_difference.
  by rewrite (elem_of_list_snapshot c A x HA), (elem_of_list_ami c B x HB).
Qed.

Lemma main_returns_unreferenced_image_snapshots_witness :
  ¬ ∃ b, b ∈ listed_blocks client_a ∧ block_snapshot_id b = "snap-2".
Proof.
  apply (main_returns_unreferenced_image_snapshots client_a world_a {[ "snap-2" ]});
    [first [reflexivity | by vm_compute]|]. by apply elem_of_singleton.
Defined.

(** X6: once both listings succeeded, [main] is a no-op returning the empty
    set exactly when every marked snapshot record has its id among the ids
    read from the listed block-device mappings. *)
Theorem main_noop_iff_all_referenced (c : client) (w : world) (A B : gset string) :
  list_snapshot c = Ok A → list_ami c = Ok B →
  main c w = (Ok ∅, w)
  ↔ ∀ s, s ∈ listed_snapshots c → is_substring MARKER (snapshot_description s) →
         ∃ b, b ∈ listed_blocks c ∧ block_snapshot_id b = snapshot_id s.
Proof.
  intros HA HB. split.
  - intros Hmain s Hs Hsub.
    assert ((main c w).1 = Ok ∅) as (A' & B' & HA' & HB' & HO)%main_Ok_collectors
      by by rewrite Hmain.
    assert (A' = A) as -> by congruence. assert (B' = B) as -> by congruence.
    apply (elem_of_list_ami c B _ HB).
    destruct (decide (snapshot_id s ∈ B)) as [|Hnot]; [done|]. exfalso.
    assert (snapshot_id s ∈ reconcile A B) as Hin; [|rewrite <- HO in Hin; set_solver].
    apply elem_of_difference. split; [|done].
    apply (elem_of_list_snapshot c A _ HA). by exists s.
  - intros Hall. apply (main_no_orphans c w A B); [done..|].
    apply set_eq. intros x. unfold reconcile. rewrite elem_of_difference.
    rewrite (elem_of_list_snapshot c A x HA), (elem_of_list_ami c B x HB).
    split; [|set_solver]. intros [(s & Hs & Hsub & <-) Hnot].
    destruct Hnot. by apply Hall.
Qed.

Lemma main_noop_iff_all_referenced_witness :
  main client_all_referenced world_a = (Ok ∅, world_a).
Proof.
  apply (main_noop_iff_all_referenced client_all_referenced world_a
           {[ "snap-1"; "snap-2"; "snap-3" ]} {[ "snap-1"; "snap-2"; "snap-3" ]});
    [(first [reflexivity | by vm_compute])..|].
  intros s Hs Hsub. unfold listed_snapshots in Hs. simpl in Hs.
  unfold listed_blocks. simpl.
  apply py_in_spec in Hsub.
  repeat (apply elem_of_cons in Hs as [-> | Hs]);
    [ exists (ebs_block "snap-1") | exists (ebs_block "snap-2")
    | exists (ebs_block "snap-3") | by vm_compute in Hsub | by apply elem_of_nil in Hs ];
    (split; [rewrite !elem_of_cons; tauto | done]).
Defined.

(** X7: deregistering images never removes an orphan: when two listings show
    the same snapshot records and the mappings of the second are among those
    of the first, every orphan of the first is an orphan of the second. *)
Theorem fewer_images_more_orphans (c c' : client) (A B A' B' : gset string) :
  list_snapshot c = Ok A → list_ami c = Ok B →
  list_snapshot c' = Ok A' → list_ami c' = Ok B' →
  (∀ s, s ∈ listed_snapshots c ↔ s ∈ listed_snapshots c') →
  (∀ b, b ∈ listed_blocks c' → b ∈ listed_blocks c) →
  reconcile A B ⊆ reconcile A' B'.
Proof.
  intros HA HB HA' HB' Hsnap Hblocks x. unfold reconcile. rewrite !elem_of_difference.
  rewrite (elem_of_list_snapshot c A x HA), (elem_of_list_snapshot c' A' x HA').
  rewrite (elem_of_list_ami c B x HB), (elem_of_list_ami c' B' x HB').
  intros [(s & Hs & Hrest) Hnot]. split.
  - exists s. split; [by apply Hsnap | done].
  - intros (b & Hb & Hid). apply Hnot. exists b. split; [by apply Hblocks | done].
Qed.

Lemma fewer_images_more_orphans_witness :
  reconcile {[ "snap-1"; "snap-2"; "snap-3" ]} {[ "snap-1"; "snap-3" ]}
  ⊆ reconcile {[ "snap-1"; "snap-2"; "snap-3" ]} ({[ "snap-1" ]} : gset string).
Proof.
  apply (fewer_images_more_orphans client_a client_fewer_images);
    [(first [reflexivity | by vm_compute])..|done|].
  intros b. unfold listed_blocks. simpl. rewrite !elem_of_cons. tauto.
Defined.

(** X8: when a marked snapshot record has no id (or an empty one) and every
    listed mapping carries a non-empty id, the empty string is an orphan and
    is among the resources of the tagging call. *)
Theorem empty_id_is_tagged_when_unmasked (c : client) (w : world) (A B : gset string) :
  list_snapshot c = Ok A → list_ami c = Ok B →
  (∃ s, s ∈ listed_snapshots c ∧ is_substring MARKER (snapshot_description s)
        ∧ snapshot_id s = EmptyString) →
  (∀ b, b ∈ listed_blocks c → block_snapshot_id b ≠ EmptyString) →
  EmptyString ∈ reconcile A B
  ∧ ∃ ids evs, appended w (main c w).2 (EvCreateTags ids TAGS :: evs)
               ∧ EmptyString ∈ ids.
Proof.
  intros HA HB Hs Hblocks.
  assert (EmptyString ∈ reconcile A B) as Hin.
  { apply elem_of_difference. split.
    - by apply (elem_of_list_snapshot c A _ HA).
    - intros (b & Hb & Hid)%(elem_of_list_ami c B _ HB). by apply (Hblocks b). }
  split; [done|].
  assert (reconcile A B ≠ ∅) as HO by set_solver.
  destruct (main_orphans_effect c w A B HA HB HO) as (evs & Happ & _).
  exists (elements (reconcile A B)), evs. split; [done|]. by apply elem_of_elements.
Qed.

Lemma empty_id_is_tagged_when_unmasked_witness :
  EmptyString ∈ reconcile {[ EmptyString; "snap-1"; "snap-2"; "snap-3" ]}
                          ({[ "snap-1"; "snap-3" ]} : gset string).
Proof.
  apply (empty_id_is_tagged_when_unmasked client_unmasked world_a); [(first [reflexivity | by vm_compute])..| |].
  - exists (Snapshot (Some MARKER) None). split; [|split; [by apply py_in_spec|done]].
    unfold listed_snapshots. simpl. rewrite !elem_of_cons. tauto.
  - intros b. unfold listed_blocks. simpl. rewrite !elem_of_cons, elem_of_nil.
    intros [-> | [-> | []]]; done.
Defined.

(** * Further properties of the export and of the side effects of [main] *)

Lemma export_text_frame (ids : gset string) (w : world) :
  open_fault (export_text ids w).2 = open_fault w
  ∧ write_fault (export_text ids w).2 = write_fault w.
Proof.
  unfold export_text, bind, file_open_w. simpl.
  destruct (open_fault w) eqn:Hopen; [done|]. unfold finally.
  match goal with |- context [write_all ?l ?w0] =>
    pose proof (write_all_effect l w0) as (_ & _ & _ & Ho & Hw);
    destruct (write_all l w0) as [r w1] end.
  simpl in *. by rewrite Ho, Hw.
Qed.

(** X10: when the export file cannot be opened, [main] raises the wrapped
    error after the tagging call went through: the tags stay applied, the
    file keeps its earlier content, no handle is left open, and the calls
    issued are the tagging call and the failed open. *)
Theorem main_open_failure_after_tagging
    (c : client) (w : world) (A B : gset string) (e : exn) :
  list_snapshot c = Ok A → list_ami c = Ok B → reconcile A B ≠ ∅ →
  create_tags_fault c (elements (reconcile A B)) = None →
  open_fault w = Some e →
  main c w
  = (Raise (Exception_from MAIN_ERROR e),
     World (apply_tags (elements (reconcile A B)) TAGS (provider_tags w))
           (export_file w) (open_handles w)
           (trace w ++ [ EvCreateTags (elements (reconcile A B)) TAGS;
                         EvOpen EXPORT_FILE_NAME "w" ])
           (open_fault w) (write_fault w)).
Proof.
  intros HA HB HO Htag Hopen. rewrite (main_orphans c w A B) by done.
  rewrite (grant_tag_succeeds c) by done.
  unfold export_text, bind, file_open_w. simpl. rewrite Hopen.
  unfold log_event. simpl. by rewrite <- app_assoc, Hopen.
Qed.

Lemma main_open_failure_after_tagging_witness :
  export_file (main client_a world_read_only).2 = Some "snap-0".
Proof.
  rewrite (main_open_failure_after_tagging client_a world_read_only
             {[ "snap-1"; "snap-2"; "snap-3" ]} {[ "snap-1"; "snap-3" ]}
             (OSError "Permission denied")); [done | (first [reflexivity | by vm_compute]).. | done | done].
Defined.

(** A run in which nothing fails. *)
Lemma main_healthy_run (c : client) (w : world) (A B : gset string) :
  list_snapshot c = Ok A → list_ami c = Ok B → reconcile A B ≠ ∅ →
  create_tags_fault c (elements (reconcile A B)) = None →
  healthy_disk w →
  main c w
  = (Ok (reconcile A B),
     World (apply_tags (elements (reconcile A B)) TAGS (provider_tags w))
           (Some (export_content (elements (reconcile A B))))
           (open_handles w)
           (trace w ++ EvCreateTags (elements (reconcile A B)) TAGS
              :: EvOpen EXPORT_FILE_NAME "w"
              :: ((λ id, EvWrite (id +:+ newline)) <$> elements (reconcile A B))
              ++ [EvClose])
           (open_fault w) (write_fault w)).
Proof.
  intros HA HB HO Htag Hdisk. rewrite (main_orphans c w A B) by done.
  rewrite (grant_tag_succeeds c) by done.
  rewrite export_text_healthy by (destruct Hdisk; by split).
  simpl. by rewrite <- app_assoc.
Qed.

(** X11: with a non-empty orphan set, a tagging call that goes through and a
    healthy disk, [main] returns the orphan set after exactly these calls:
    one tagging call on all orphans, one open, one write per orphan, one
    close; the export file then holds one line per orphan and no handle is
    left open. *)
Theorem main_success (c : client) (w : world) (A B : gset string) :
  list_snapshot c = Ok A → list_ami c = Ok B → reconcile A B ≠ ∅ →
  create_tags_fault c (elements (reconcile A B)) = None →
  healthy_disk w →
  main c w
  = (Ok (reconcile A B),
     World (apply_tags (elements (reconcile A B)) TAGS (provider_tags w))
           (Some (export_content (elements (reconcile A B))))
           (open_handles w)
           (trace w ++ EvCreateTags (elements (reconcile A B)) TAGS
              :: EvOpen EXPORT_FILE_NAME "w"
              :: ((λ id, EvWrite (id +:+ newline)) <$> elements (reconcile A B))
              ++ [EvClose])
           (open_fault w) (write_fault w)).
Proof. apply main_healthy_run. Qed.

Lemma main_success_witness :
  (main client_a world_a).1
  = Ok (reconcile {[ "snap-1"; "snap-2"; "snap-3" ]} {[ "snap-1"; "snap-3" ]}).
Proof.
  rewrite (main_success client_a world_a
             {[ "snap-1"; "snap-2"; "snap-3" ]} {[ "snap-1"; "snap-3" ]});
    [done | (first [reflexivity | by vm_compute]).. | done | by split].
Defined.

(** The lines of a text that continues after a complete line. *)
Lemma split_lines_chunk (s cur rest : string) :
  split_lines cur (s +:+ newline +:+ rest)
  = split_lines cur (s +:+ newline) ++ split_lines EmptyString rest.
Proof.
  revert cur. induction s as [|a s IH]; intros cur.
  - rewrite !append_nil_l. unfold newline. rewrite append_cons, append_nil_l.
    simpl. by destruct cur.
  - rewrite !append_cons. simpl. case_decide.
    + by rewrite IH.
    + apply IH.
Qed.

(** The lines of an export, id by id, whatever the ids contain. *)
Lemma lines_export_content_bind (l : list string) :
  lines (export_content l) = l ≫= (λ id, lines (id +:+ newline)).
Proof.
  unfold lines. induction l as [|id l IH]; [done|].
  simpl. by rewrite split_lines_chunk, IH.
Qed.

(** The lines of an export do not depend, up to their order, on the order in
    which the ids were written. *)
Lemma lines_export_content_perm (l l' : list string) :
  l ≡ₚ l' → lines (export_content l) ≡ₚ lines (export_content l').
Proof. intros Hperm. rewrite !lines_export_content_bind. by rewrite Hperm. Qed.

(** X12: a second run on the same listings, started where a run without
    failure ended, returns the same orphan set and rewrites the export file
    instead of appending to it: the lines of the file are then, up to their
    order, those of one export of the orphan set, in whatever order that
    export went through the set; no handle stays open. *)
Theorem main_rerun_overwrites (c : client) (w : world) (A B : gset string) :
  list_snapshot c = Ok A → list_ami c = Ok B → reconcile A B ≠ ∅ →
  create_tags_fault c (elements (reconcile A B)) = None →
  healthy_disk w →
  (main c (main c w).2).1 = (main c w).1
  ∧ (∃ content,
       export_file (main c (main c w).2).2 = Some content
       ∧ ∀ l, l ≡ₚ elements (reconcile A B) →
              lines content ≡ₚ lines (export_content l))
  ∧ open_handles (main c (main c w).2).2 = open_handles w.
Proof.
  intros HA HB HO Htag Hdisk.
  rewrite (main_healthy_run c w A B) by done. simpl.
  rewrite (main_healthy_run c _ A B); [|done..|destruct Hdisk; by split].
  simpl. split; [done|]. split; [|done].
  eexists. split; [done|]. intros l Hl. by apply lines_export_content_perm.
Qed.

Lemma main_rerun_overwrites_witness :
  ∃ content,
    export_file (main client_fewer_images (main client_fewer_images world_a).2).2
    = Some content
    ∧ lines content ≡ₚ lines (export_content [ "snap-2"; "snap-3" ])
    ∧ lines content ≡ₚ lines (export_content [ "snap-3"; "snap-2" ]).
Proof.
  destruct (main_rerun_overwrites client_fewer_images world_a
              {[ "snap-1"; "snap-2"; "snap-3" ]} {[ "snap-1" ]})
    as (_ & (content & Hfile & Hlines) & _);
    [reflexivity | reflexivity | by vm_compute | reflexivity | by split |].
  assert (elements (reconcile {[ "snap-1"; "snap-2"; "snap-3" ]}
                              ({[ "snap-1" ]} : gset string))
          = [ "snap-3"; "snap-2" ]) as Helems by reflexivity.
  exists content. split; [exact Hfile|]. split; apply Hlines; rewrite Helems.
  - apply perm_swap.
  - done.
Defined.

(** X13: whatever fails, [main] leaves no handle open on the export file:
    the number of open handles after a run is the number before it. *)
Theorem main_leaves_no_handle_open (c : client) (w : world) :
  open_handles (main c w).2 = open_handles w.
Proof.
  destruct (list_snapshot c) as [A|e] eqn:HA;
    [|by rewrite (main_snapshots_fail c w e)].
  destruct (list_ami c) as [B|e] eqn:HB;
    [|by rewrite (main_images_fail c w A e)].
  destruct (decide (reconcile A B = ∅)) as [HO|HO];
    [by rewrite (main_no_orphans c w A B)|].
  rewrite (main_orphans c w A B) by done.
  pose proof (grant_tag_effect c (elements (reconcile A B)) w) as (_ & _ & Hh & _).
  destruct (grant_tag c _ w) as [[[]|e] w1]; simpl in *; [|done].
  pose proof (export_text_releases (reconcile A B) w1) as Hr.
  destruct (export_text _ w1) as [[[]|e] w2]; simpl in *; congruence.
Qed.
